(** * The open-world presence server (world/example-server.js)

    A shallow embedding of the Socket.io example server listed in the
    repository's README, and the properties of its admission, movement,
    chat, teardown and periodic-cleanup paths.

    Modelling conventions.
    - Coordinates, speeds and clock readings are JavaScript numbers; they
      are taken here as integers ([Z]): pixel coordinates and millisecond
      readings of [Date.now()].  On integers the source's
      [Math.sqrt(dx*dx + dy*dy) <= maxSpeed] is decided exactly by
      comparing squares ([sqrt_leb], justified against the real square
      root in [sqrt_leb_spec]).
    - A JS [Map] is a [gmap]; the registry [worlds] holds *references* to
      the per-world Map objects, which live in [heap], because every
      connection's handlers close over the Map object returned by
      [getWorld] at admission and keep using it afterwards.
    - One event is processed at a time (Node's single dispatcher); every
      event carries the clock reading [now] its handler observes.
    - What a handler sends is returned as a list of [Action]s; who receives
      an emission is given by [delivers], the room semantics of Socket.io
      (a socket is in the room named by its own id and in the room it
      joined). *)

From Stdlib Require Import Reals Lra.
From stdpp Require Import gmap strings list fin_maps.

Open Scope Z_scope.

(** ** Configuration *)

Definition MAX_PLAYERS_PER_WORLD : nat := 50.
Definition UPDATE_RATE_LIMIT : Z := 50.
Definition DEFAULT_MAX_SPEED : Z := 15.
Definition STALE_AFTER : Z := 300000.

(** ** Data model *)

Record Position := mkPosition { x : Z; y : Z }.

Definition SPAWN : Position := mkPosition 500 500.

Module Player.
Record t := mk {
  id : string;
  username : string;
  position : Position;
  direction : string;
  isMoving : bool;
  avatar : string;
  timestamp : Z
}.
End Player.

Abbreviation World := (gmap string Player.t).

(** [socket.handshake.auth]: each field may be missing. *)
Record Auth := mkAuth {
  auth_userId : option string;
  auth_worldId : option string;
  auth_username : option string
}.

(** The payload of a [player:move] event. *)
Record MovementUpdate := mkUpdate {
  u_position : Position;
  u_direction : string;
  u_isMoving : bool
}.

(** What the handlers of one connection close over. *)
Record Session := mkSession {
  s_userId : string;
  s_worldId : string;
  s_username : option string;
  s_world : nat
}.

Record Server := mkServer {
  heap : gmap nat World;            (* the Map objects created by getWorld *)
  next : nat;                       (* next unused address *)
  worlds : gmap string nat;         (* worldId -> Map(userId -> player) *)
  userSockets : gmap string string; (* userId -> socketId *)
  rateLimits : gmap string Z;       (* socketId -> lastUpdateTime *)
  sessions : gmap string Session    (* connected sockets with handlers *)
}.

Definition init : Server := mkServer ∅ 0%nat ∅ ∅ ∅ ∅.

(** ** Messages and emissions *)

Inductive Message :=
| MError (message : string)
| MWorldState (players : list Player.t)
| MPlayerJoined (player : Player.t)
| MPositionReset (position : Position)
| MPlayerMoved (playerId : string) (position : Position)
               (direction : string) (isMoving : bool) (timestamp : Z)
| MChatMessage (playerId username message : string) (timestamp : Z)
| MInteractionInitiated (targetId targetUsername : string)
| MInteractionReceived (fromId fromUsername : string)
| MPlayerEmoted (playerId emote : string) (timestamp : Z)
| MPlayerLeft (userId : string).

Inductive Target :=
| ToSocket (sid : string)                (* socket.emit *)
| ToOthers (sid : string) (room : string) (* socket.to(room).emit *)
| ToRoom (room : string).                (* io.to(room).emit *)

Inductive Action :=
| Emit (tgt : Target) (msg : Message)
| Disconnect (sid : string).             (* socket.disconnect() *)

Inductive Event :=
| EConnection (sid : string) (auth : Auth) (now : Z)
| EPlayerMove (sid : string) (update : MovementUpdate) (now : Z)
| EChatMessage (sid : string) (message : string) (now : Z)
| EPlayerInteract (sid : string) (targetId : string)
| EPlayerEmote (sid : string) (emote : string) (now : Z)
| EDisconnect (sid : string)
| ECleanup (now : Z).

#[global] Instance Position_eq_dec : EqDecision Position.
Proof. solve_decision. Defined.
#[global] Instance Player_eq_dec : EqDecision Player.t.
Proof. solve_decision. Defined.
#[global] Instance Message_eq_dec : EqDecision Message.
Proof. solve_decision. Defined.

(** ** Helpers of the server *)

(** JS truthiness of an optional string: present and not empty. *)
Definition truthy (o : option string) : option string :=
  match o with
  | Some s => if decide (s = "") then None else Some s
  | None => None
  end.

(** The Map object a reference denotes. *)
Definition deref (h : gmap nat World) (r : nat) : World := default ∅ (h !! r).

(** [getWorld(worldId)]: the registered Map, or a new empty one. *)
Definition getWorld (worldId : string) (s : Server) : Server * nat :=
  match worlds s !! worldId with
  | Some r => (s, r)
  | None =>
      let r := next s in
      (mkServer (<[r := ∅]> (heap s)) (S r) (<[worldId := r]> (worlds s))
                (userSockets s) (rateLimits s) (sessions s), r)
  end.

(** [Math.sqrt(n) <= m] on integers. *)
Definition sqrt_leb (n m : Z) : bool := (0 <=? m) && (n <=? m * m).

(** [validateMovement(oldPos, newPos, maxSpeed = 15)] *)
Definition validateMovement (oldPos : option Position) (newPos : Position)
    (maxSpeed : Z) : bool :=
  match oldPos with
  | None => true
  | Some o =>
      let dx := x newPos - x o in
      let dy := y newPos - y o in
      sqrt_leb (dx * dx + dy * dy) maxSpeed
  end.

(** [checkRateLimit(socketId)], reading the clock as [now]. *)
Definition checkRateLimit (socketId : string) (now : Z) (s : Server)
    : Server * bool :=
  let lastUpdate := default 0 (rateLimits s !! socketId) in
  if now - lastUpdate <? UPDATE_RATE_LIMIT then (s, false)
  else (mkServer (heap s) (next s) (worlds s) (userSockets s)
                 (<[socketId := now]> (rateLimits s)) (sessions s), true).

(** Replace the Map object at [r]. *)
Definition set_world (r : nat) (w : World) (s : Server) : Server :=
  mkServer (<[r := w]> (heap s)) (next s) (worlds s) (userSockets s)
           (rateLimits s) (sessions s).

(** ** The connection handler and the per-socket handlers *)

Definition AVATAR : string := "🧍".

Definition spawn_player (userId : string) (username : option string)
    (now : Z) : Player.t :=
  Player.mk userId
    (match truthy username with
     | Some n => n
     | None => "User" +:+ String.substring 0 4 userId
     end)
    SPAWN "down" false AVATAR now.

(** [io.on('connection', ...)] *)
Definition on_connection (sid : string) (auth : Auth) (now : Z) (s : Server)
    : Server * list Action :=
  match truthy (auth_userId auth), truthy (auth_worldId auth) with
  | Some userId, Some worldId =>
      let '(s1, r) := getWorld worldId s in
      let world := deref (heap s1) r in
      if decide (MAX_PLAYERS_PER_WORLD ≤ size world)%nat then
        (s1, [Emit (ToSocket sid) (MError "World is full"); Disconnect sid])
      else
        let currentPlayers := (map_to_list world).*2 in
        let player := spawn_player userId (auth_username auth) now in
        (mkServer (<[r := <[userId := player]> world]> (heap s1)) (next s1)
                  (worlds s1) (<[userId := sid]> (userSockets s1))
                  (rateLimits s1)
                  (<[sid := mkSession userId worldId (auth_username auth) r]>
                     (sessions s1)),
         [Emit (ToSocket sid) (MWorldState currentPlayers);
          Emit (ToOthers sid worldId) (MPlayerJoined player)])
  | _, _ => (s, [Disconnect sid])
  end.

(** [socket.on('player:move', ...)] *)
Definition on_player_move (sid : string) (update : MovementUpdate) (now : Z)
    (s : Server) : Server * list Action :=
  match sessions s !! sid with
  | None => (s, [])
  | Some c =>
      let '(s1, ok) := checkRateLimit sid now s in
      if negb ok then (s1, [])
      else
        let world := deref (heap s1) (s_world c) in
        match world !! s_userId c with
        | None => (s1, [])
        | Some player =>
            if negb (validateMovement (Some (Player.position player))
                       (u_position update) DEFAULT_MAX_SPEED)
            then (s1, [Emit (ToSocket sid)
                         (MPositionReset (Player.position player))])
            else
              let player' :=
                Player.mk (Player.id player) (Player.username player)
                  (u_position update) (u_direction update)
                  (u_isMoving update) (Player.avatar player) now in
              (set_world (s_world c) (<[s_userId c := player']> world) s1,
               [Emit (ToOthers sid (s_worldId c))
                  (MPlayerMoved (s_userId c) (u_position update)
                     (u_direction update) (u_isMoving update) now)])
        end
  end.

(** [socket.on('chat:message', ...)] *)
Definition on_chat_message (sid : string) (message : string) (now : Z)
    (s : Server) : Server * list Action :=
  match sessions s !! sid with
  | None => (s, [])
  | Some c =>
      match deref (heap s) (s_world c) !! s_userId c with
      | None => (s, [])
      | Some player =>
          (s, [Emit (ToRoom (s_worldId c))
                 (MChatMessage (s_userId c) (Player.username player)
                    message now)])
      end
  end.

(** [socket.on('player:interact', ...)] *)
Definition on_player_interact (sid : string) (targetId : string)
    (s : Server) : Server * list Action :=
  match sessions s !! sid with
  | None => (s, [])
  | Some c =>
      let world := deref (heap s) (s_world c) in
      match world !! s_userId c, world !! targetId with
      | Some player, Some targetPlayer =>
          (s, Emit (ToSocket sid)
                (MInteractionInitiated targetId
                   (Player.username targetPlayer))
              :: match truthy (userSockets s !! targetId) with
                 | Some targetSocketId =>
                     [Emit (ToRoom targetSocketId)
                        (MInteractionReceived (s_userId c)
                           (Player.username player))]
                 | None => []
                 end)
      | _, _ => (s, [])
      end
  end.

(** [socket.on('player:emote', ...)] *)
Definition on_player_emote (sid : string) (emote : string) (now : Z)
    (s : Server) : Server * list Action :=
  match sessions s !! sid with
  | None => (s, [])
  | Some c =>
      match deref (heap s) (s_world c) !! s_userId c with
      | None => (s, [])
      | Some _ =>
          (s, [Emit (ToOthers sid (s_worldId c))
                 (MPlayerEmoted (s_userId c) emote now)])
      end
  end.

(** [socket.on('disconnect', ...)] *)
Definition on_disconnect (sid : string) (s : Server) : Server * list Action :=
  match sessions s !! sid with
  | None => (s, [])
  | Some c =>
      let world := delete (s_userId c) (deref (heap s) (s_world c)) in
      (mkServer (<[s_world c := world]> (heap s)) (next s)
                (if decide (size world = 0%nat)
                 then delete (s_worldId c) (worlds s) else worlds s)
                (delete (s_userId c) (userSockets s))
                (delete sid (rateLimits s))
                (delete sid (sessions s)),
       [Emit (ToOthers sid (s_worldId c)) (MPlayerLeft (s_userId c))])
  end.

(** ** Periodic cleanup *)

Definition stale (now : Z) (player : Player.t) : bool :=
  STALE_AFTER <? now - Player.timestamp player.

Definition remove_stale (now : Z) (world : World) : World :=
  filter (λ kv, stale now kv.2 = false) world.

(** The body of [worlds.forEach((world, worldId) => ...)]. *)
Definition cleanup_world (now : Z) (s : Server) (e : string * nat) : Server :=
  let world := remove_stale now (deref (heap s) e.2) in
  mkServer (<[e.2 := world]> (heap s)) (next s)
           (if decide (size world = 0%nat)
            then delete e.1 (worlds s) else worlds s)
           (userSockets s) (rateLimits s) (sessions s).

(** The [setInterval] callback. *)
Definition periodic_cleanup (now : Z) (s : Server) : Server * list Action :=
  (foldl (cleanup_world now) s (map_to_list (worlds s)), []).

(** ** The server as a transition system *)

Definition step (e : Event) (s : Server) : Server * list Action :=
  match e with
  | EConnection sid auth now => on_connection sid auth now s
  | EPlayerMove sid update now => on_player_move sid update now s
  | EChatMessage sid message now => on_chat_message sid message now s
  | EPlayerInteract sid targetId => on_player_interact sid targetId s
  | EPlayerEmote sid emote now => on_player_emote sid emote now s
  | EDisconnect sid => on_disconnect sid s
  | ECleanup now => periodic_cleanup now s
  end.

Definition run (evs : list Event) (s : Server) : Server :=
  foldl (λ s e, (step e s).1) s evs.

Definition reachable (s : Server) : Prop := ∃ evs, s = run evs init.

(** ** Delivery: the rooms of Socket.io *)

(** A connected socket is in the room named by its own id and in the room
    of the world it joined. *)
Definition joined (cs : gmap string Session) (room sid : string) : bool :=
  match cs !! sid with
  | Some c => bool_decide (room = sid ∨ room = s_worldId c)
  | None => false
  end.

Definition delivers (cs : gmap string Session) (tgt : Target) (sid : string)
    : bool :=
  match tgt with
  | ToSocket t => bool_decide (sid = t)
  | ToOthers t room => bool_decide (sid ≠ t) && joined cs room sid
  | ToRoom room => joined cs room sid
  end.

Definition received (cs : gmap string Session) (sid : string) (a : Action)
    : option Message :=
  match a with
  | Emit tgt msg => if delivers cs tgt sid then Some msg else None
  | Disconnect _ => None
  end.

(** The messages a list of actions puts on the wire of socket [sid]. *)
Definition inbox (cs : gmap string Session) (out : list Action) (sid : string)
    : list Message :=
  omap (received cs sid) out.

(** The members of a world as the server sees them. *)
Definition members (s : Server) (worldId : string) : World :=
  match worlds s !! worldId with
  | Some r => deref (heap s) r
  | None => ∅
  end.

(** ** Auxiliary notions used in the statements *)


(** Events that read or write the rate-limit clock of socket [sid], or
    open or close that socket. *)
Definition touches_limiter (sid : string) (e : Event) : Prop :=
  match e with
  | EConnection sid' _ _ | EPlayerMove sid' _ _ | EDisconnect sid' => sid' = sid
  | _ => False
  end.


(** Consistency of the registry with the Map objects and with what the
    connections hold on to. *)
Record registry_ok (s : Server) : Prop := mkRegistryOk {
  reg_bound : ∀ wid r, worlds s !! wid = Some r → (r < next s)%nat;
  ses_bound : ∀ sid c, sessions s !! sid = Some c → (s_world c < next s)%nat;
  ses_world : ∀ sid c wid,
    sessions s !! sid = Some c → worlds s !! wid = Some (s_world c) →
    wid = s_worldId c;
  reg_inj : ∀ wid wid' r,
    worlds s !! wid = Some r → worlds s !! wid' = Some r → wid = wid';
  reg_nonempty : ∀ wid r, worlds s !! wid = Some r → deref (heap s) r ≠ ∅
}.

(** Every player is stored under its own id. *)
Definition world_ok (w : World) : Prop :=
  ∀ k p, w !! k = Some p → Player.id p = k.

Definition ids_ok (s : Server) : Prop := ∀ r, world_ok (deref (heap s) r).

(** What the sweep at [now] leaves of the Map object at [r]. *)
Definition swept (now : Z) (s : Server) (r : nat) : World :=
  remove_stale now (deref (heap s) r).

(** ** Example traffic *)

Definition auth_of (userId worldId : string) : Auth :=
  mkAuth (Some userId) (Some worldId) None.

Definition one_player : Server :=
  run [EConnection "A" (auth_of "u" "w") 0] init.

Definition two_players : Server :=
  run [EConnection "A" (auth_of "u" "w") 0;
       EConnection "B" (auth_of "v" "w") 200000] init.

(** Unary tags, to name many sockets and users. *)
Fixpoint tally (n : nat) : string :=
  match n with
  | O => ""
  | S k => "i" +:+ tally k
  end.

(** [n] users joining world [w], one after the other. *)
Definition crowd (n : nat) : list Event :=
  (λ k, EConnection ("c" +:+ tally k) (auth_of ("p" +:+ tally k) "w")
          (Z.of_nat k)) <$> seq 0 n.

Definition full_house : Server := run (crowd 50) init.



(** A connection idles until the sweep removes its player and its world; a
    second user then joins the same world id, and the first connection
    closes. *)
Definition orphaning_trace : list Event :=
  [EConnection "A" (auth_of "u" "w") 0;
   ECleanup 600000;
   EConnection "C" (auth_of "v" "w") 600010;
   EDisconnect "A"].

(** The same without the sweep: two connections of one user id. *)
Definition orphaning_trace_rejoin : list Event :=
  [EConnection "A" (auth_of "u" "w") 0;
   EConnection "B" (auth_of "u" "w") 10;
   EDisconnect "A";
   EConnection "C" (auth_of "v" "w") 20;
   EDisconnect "B"].

Definition step_right : MovementUpdate :=
  mkUpdate (mkPosition 510 500) "right" true.

Definition jump_right : MovementUpdate :=
  mkUpdate (mkPosition 600 500) "right" true.

(** ** The REST endpoints *)

(** The reply of [app.get('/')]. *)
Record RootReply := mkRootReply {
  root_status : string;
  root_message : string;
  root_worlds : list string;
  root_totalPlayers : nat
}.

Definition get_root (s : Server) : RootReply :=
  mkRootReply "online" "Open World Server"
    (map_to_list (worlds s)).*1
    (foldl (λ sum world, sum + size world)%nat 0%nat
       (deref (heap s) <$> (map_to_list (worlds s)).*2)).

(** One entry of the reply of [app.get('/stats')]. *)
Record WorldStats := mkWorldStats {
  stats_players : nat;
  stats_playerList : list (string * string * Position)
}.

Definition stats_of (world : World) : WorldStats :=
  mkWorldStats (size world)
    ((λ p, (Player.id p, Player.username p, Player.position p))
       <$> (map_to_list world).*2).

(** [stats] is a plain object filled by [stats[worldId] = ...] and sent as
    JSON.  An assignment to the key "__proto__" sets the prototype of the
    object instead of creating a property, and JSON only lists own
    properties: a world of that name is not part of the reply. *)
Definition get_stats (s : Server) : gmap string WorldStats :=
  filter (λ kv, kv.1 ≠ "__proto__")
    ((λ r, stats_of (deref (heap s) r)) <$> worlds s).

(** ** Traces *)

(** Socket.io gives every connection an id no open connection has. *)
Definition fresh_socket (s : Server) (e : Event) : Prop :=
  match e with
  | EConnection sid _ _ => sessions s !! sid = None
  | _ => True
  end.

Fixpoint well_formed (evs : list Event) (s : Server) : Prop :=
  match evs with
  | [] => True
  | e :: evs' => fresh_socket s e ∧ well_formed evs' (step e s).1
  end.

Fixpoint move_count (evs : list Event) : nat :=
  match evs with
  | [] => 0%nat
  | EPlayerMove _ _ _ :: evs' => S (move_count evs')
  | _ :: evs' => move_count evs'
  end.

(** The event comes from socket [sid] and is not its connection. *)
Definition event_of (sid : string) (e : Event) : Prop :=
  match e with
  | EPlayerMove sid' _ _ | EChatMessage sid' _ _ | EPlayerInteract sid' _
  | EPlayerEmote sid' _ _ | EDisconnect sid' => sid' = sid
  | EConnection _ _ _ | ECleanup _ => False
  end.

(** ** The client hooks (world/hooks of the integration guide) *)

Module Client.

(** [socketService.onWorldState] callback of [useWorldState]. *)
Definition onWorldState (playerList : list Player.t) : World :=
  foldl (λ playersMap player, <[Player.id player := player]> playersMap)
        ∅ playerList.

(** [socketService.onPlayerMove] callback. *)
Definition onPlayerMove (playerId : string) (position : Position)
    (direction : string) (isMoving : bool) (timestamp : Z) (prev : World)
    : World :=
  match prev !! playerId with
  | Some player =>
      <[playerId := Player.mk (Player.id player) (Player.username player)
                      position direction isMoving (Player.avatar player)
                      timestamp]> prev
  | None => prev
  end.

(** [socketService.onPlayerJoin] callback. *)
Definition onPlayerJoin (player : Player.t) (prev : World) : World :=
  <[Player.id player := player]> prev.

(** [socketService.onPlayerLeave] callback. *)
Definition onPlayerLeave (playerId : string) (prev : World) : World :=
  delete playerId prev.

(** The four subscriptions of [useWorldState], by message. *)
Definition receive (msg : Message) (players : World) : World :=
  match msg with
  | MWorldState playerList => onWorldState playerList
  | MPlayerMoved playerId position direction isMoving timestamp =>
      onPlayerMove playerId position direction isMoving timestamp players
  | MPlayerJoined player => onPlayerJoin player players
  | MPlayerLeft playerId => onPlayerLeave playerId players
  | _ => players
  end.

Inductive Direction := DUp | DDown | DLeft | DRight.

Definition DEFAULT_SPEED : Z := 5.

(** One run of the [setInterval] callback of [movePlayer] in
    [usePlayerMovement]. *)
Definition movePlayer_tick (speed : Z) (newDirection : Direction)
    (prev : Position) : Position :=
  match newDirection with
  | DUp => mkPosition (x prev) (Z.max 0 (y prev - speed))
  | DDown => mkPosition (x prev) (Z.min 1000 (y prev + speed))
  | DLeft => mkPosition (Z.max 0 (x prev - speed)) (y prev)
  | DRight => mkPosition (Z.min 1000 (x prev + speed)) (y prev)
  end.

End Client.

(** The messages of an inbox applied by the client, oldest first. *)
Definition client_view (msgs : list Message) (players : World) : World :=
  foldl (λ m msg, Client.receive msg m) players msgs.

(** * Properties *)

(** ** The movement validator *)




(** ** The rate limiter and the move handler *)

Arguments validateMovement : simpl never.

Lemma checkRateLimit_pass sid now s :
  UPDATE_RATE_LIMIT ≤ now - default 0 (rateLimits s !! sid) →
  checkRateLimit sid now s =
    (mkServer (heap s) (next s) (worlds s) (userSockets s)
       (<[sid := now]> (rateLimits s)) (sessions s), true).
Proof.
  intros H. unfold checkRateLimit.
  destruct (Z.ltb_spec (now - default 0 (rateLimits s !! sid)) UPDATE_RATE_LIMIT);
    [lia|done].
Qed.

Lemma checkRateLimit_drop sid now s :
  now - default 0 (rateLimits s !! sid) < UPDATE_RATE_LIMIT →
  checkRateLimit sid now s = (s, false).
Proof.
  intros H. unfold checkRateLimit.
  destruct (Z.ltb_spec (now - default 0 (rateLimits s !! sid)) UPDATE_RATE_LIMIT);
    [done|lia].
Qed.

Lemma on_player_move_drop sid update now s :
  now - default 0 (rateLimits s !! sid) < UPDATE_RATE_LIMIT →
  on_player_move sid update now s = (s, []).
Proof.
  intros H. unfold on_player_move.
  destruct (sessions s !! sid); [|done].
  by rewrite checkRateLimit_drop.
Qed.

(** Whatever the validator says, a move that passes the gate stamps the
    clock of its socket. *)
Lemma on_player_move_clock sid c update now s :
  sessions s !! sid = Some c →
  UPDATE_RATE_LIMIT ≤ now - default 0 (rateLimits s !! sid) →
  rateLimits (on_player_move sid update now s).1 !! sid = Some now ∧
  sessions (on_player_move sid update now s).1 = sessions s.
Proof.
  intros Hc Hgate. unfold on_player_move.
  rewrite Hc, checkRateLimit_pass by done. simpl.
  destruct (_ !! s_userId c) as [player|]; simpl.
  - destruct (validateMovement (Some (Player.position player))
                (u_position update) DEFAULT_MAX_SPEED); simpl;
      by rewrite lookup_insert_eq.
  - by rewrite lookup_insert_eq.
Qed.

Lemma inbox_to_socket cs sid msg x :
  inbox cs [Emit (ToSocket sid) msg] x = if decide (x = sid) then [msg] else [].
Proof.
  unfold inbox. simpl. rewrite bool_decide_decide.
  by destruct (decide (x = sid)).
Qed.

(** C2. A move that reaches the validator and is rejected by it leaves the
    player table, the registry and the connections as they were, emits no
    [player:moved], and sends exactly one [player:position_reset] with the
    player's current position, to the originating socket only; the socket
    stays connected. *)
Theorem C2_rejected_move_resets_sender
    (s : Server) (sid : string) (c : Session) (player : Player.t)
    (update : MovementUpdate) (now : Z) :
  sessions s !! sid = Some c →
  UPDATE_RATE_LIMIT ≤ now - default 0 (rateLimits s !! sid) →
  deref (heap s) (s_world c) !! s_userId c = Some player →
  validateMovement (Some (Player.position player)) (u_position update)
    DEFAULT_MAX_SPEED = false →
  ∃ s',
    step (EPlayerMove sid update now) s =
      (s', [Emit (ToSocket sid) (MPositionReset (Player.position player))]) ∧
    heap s' = heap s ∧ worlds s' = worlds s ∧
    userSockets s' = userSockets s ∧ sessions s' = sessions s ∧
    ∀ x, inbox (sessions s') (step (EPlayerMove sid update now) s).2 x =
           if decide (x = sid)
           then [MPositionReset (Player.position player)] else [].
Proof.
  intros Hc Hgate Hp Hrej.
  assert (Hstep : step (EPlayerMove sid update now) s =
            (mkServer (heap s) (next s) (worlds s) (userSockets s)
               (<[sid := now]> (rateLimits s)) (sessions s),
             [Emit (ToSocket sid) (MPositionReset (Player.position player))])).
  { simpl. unfold on_player_move.
    rewrite Hc, checkRateLimit_pass by done. simpl.
    by rewrite Hp, Hrej. }
  rewrite Hstep. eexists. split; [reflexivity|].
  cbn [fst snd heap worlds userSockets sessions].
  repeat split. intros x'. apply inbox_to_socket.
Qed.

Lemma C2_rejected_move_resets_sender_witness :
  ∃ s',
    step (EPlayerMove "A" jump_right 100) one_player =
      (s', [Emit (ToSocket "A") (MPositionReset SPAWN)]) ∧
    heap s' = heap one_player ∧ worlds s' = worlds one_player ∧
    userSockets s' = userSockets one_player ∧
    sessions s' = sessions one_player ∧
    ∀ x, inbox (sessions s') (step (EPlayerMove "A" jump_right 100) one_player).2 x =
           if decide (x = "A") then [MPositionReset SPAWN] else [].
Proof.
  apply (C2_rejected_move_resets_sender one_player "A"
           (mkSession "u" "w" None 0) (spawn_player "u" None 0)
           jump_right 100).
  - vm_compute. reflexivity.
  - vm_compute. discriminate.
  - vm_compute. reflexivity.
  - vm_compute. reflexivity.
Defined.

(** The sweep only touches the player tables and the registry. *)
Lemma cleanup_fold_frame now l s :
  userSockets (foldl (cleanup_world now) s l) = userSockets s ∧
  rateLimits (foldl (cleanup_world now) s l) = rateLimits s ∧
  sessions (foldl (cleanup_world now) s l) = sessions s ∧
  next (foldl (cleanup_world now) s l) = next s.
Proof.
  revert s. induction l as [|e l IH]; intros s; simpl; [done|].
  destruct (IH (cleanup_world now s e)) as (-> & -> & -> & ->). done.
Qed.

Lemma getWorld_frame worldId s :
  userSockets (getWorld worldId s).1 = userSockets s ∧
  rateLimits (getWorld worldId s).1 = rateLimits s ∧
  sessions (getWorld worldId s).1 = sessions s.
Proof. unfold getWorld. by destruct (worlds s !! worldId). Qed.

(** Events of other sockets, and chat, interaction and emote events of the
    socket itself, leave its clock and its session alone. *)
Lemma step_untouched sid e s :
  ¬ touches_limiter sid e →
  rateLimits (step e s).1 !! sid = rateLimits s !! sid ∧
  sessions (step e s).1 !! sid = sessions s !! sid.
Proof.
  intros Hne. destruct e as [sid' auth now|sid' u now|sid' m now|sid' t
                            |sid' m now|sid'|now]; simpl in *.
  - unfold on_connection.
    destruct (truthy (auth_userId auth)) as [userId|]; [|done].
    destruct (truthy (auth_worldId auth)) as [worldId|]; [|done].
    destruct (getWorld_frame worldId s) as (_ & Hr & Hs).
    destruct (getWorld worldId s) as [s1 r]. simpl in *.
    destruct (decide _); simpl; rewrite ?Hr, ?Hs; [done|].
    by rewrite lookup_insert_ne.
  - unfold on_player_move.
    destruct (sessions s !! sid') as [c|]; [|done].
    unfold checkRateLimit. destruct (_ <? _); simpl; [done|].
    destruct (_ !! s_userId c) as [player|]; simpl.
    + destruct (validateMovement (Some (Player.position player))
                  (u_position u) DEFAULT_MAX_SPEED); simpl;
        by rewrite lookup_insert_ne.
    + by rewrite lookup_insert_ne.
  - unfold on_chat_message.
    destruct (sessions s !! sid') as [c|]; [|done].
    by destruct (_ !! s_userId c).
  - unfold on_player_interact.
    destruct (sessions s !! sid') as [c|]; [|done].
    destruct (_ !! s_userId c); [|done]. by destruct (_ !! t).
  - unfold on_player_emote.
    destruct (sessions s !! sid') as [c|]; [|done].
    by destruct (_ !! s_userId c).
  - unfold on_disconnect.
    destruct (sessions s !! sid') as [c|]; [|done]. simpl.
    by rewrite !lookup_delete_ne.
  - by destruct (cleanup_fold_frame now (map_to_list (worlds s)) s)
      as (_ & -> & -> & _).
Qed.

Lemma run_untouched sid evs s :
  Forall (λ e, ¬ touches_limiter sid e) evs →
  rateLimits (run evs s) !! sid = rateLimits s !! sid ∧
  sessions (run evs s) !! sid = sessions s !! sid.
Proof.
  intros Hall. revert s.
  induction Hall as [|e evs He _ IH]; intros s; [done|].
  change (run (e :: evs) s) with (run evs (step e s).1).
  destruct (IH (step e s).1) as [-> ->]. by apply step_untouched.
Qed.

(** C3. Once a move of a connection has passed the rate gate at [t1], the
    clock of the connection reads [t1] whatever the validator said; a
    further move of that connection at any [t2] with [t2 - t1 < 50] is
    dropped without any change of state and without any emission; a move at
    [t3] with [t3 - t1 >= 50] passes the gate again and stamps the clock.
    Traffic of other connections (and chat, interaction and emote events of
    this one) in between does not matter. *)
Theorem C3_rate_limit_gate
    (s : Server) (sid : string) (u1 u2 u3 : MovementUpdate) (t1 t2 t3 : Z)
    (between1 between2 : list Event) :
  is_Some (sessions s !! sid) →
  UPDATE_RATE_LIMIT ≤ t1 - default 0 (rateLimits s !! sid) →
  Forall (λ e, ¬ touches_limiter sid e) between1 →
  Forall (λ e, ¬ touches_limiter sid e) between2 →
  t2 - t1 < UPDATE_RATE_LIMIT →
  UPDATE_RATE_LIMIT ≤ t3 - t1 →
  let s1 := (step (EPlayerMove sid u1 t1) s).1 in
  let s2 := run between1 s1 in
  let s3 := run between2 (step (EPlayerMove sid u2 t2) s2).1 in
  rateLimits s1 !! sid = Some t1 ∧
  step (EPlayerMove sid u2 t2) s2 = (s2, []) ∧
  (checkRateLimit sid t3 s3).2 = true ∧
  rateLimits (step (EPlayerMove sid u3 t3) s3).1 !! sid = Some t3.
Proof.
  intros [c Hc] Hgate Hb1 Hb2 Ht2 Ht3 s1 s2 s3.
  destruct (on_player_move_clock sid c u1 t1 s Hc Hgate) as [Hclock Hsess].
  fold (step (EPlayerMove sid u1 t1) s) in Hclock, Hsess. fold s1 in Hclock, Hsess.
  destruct (run_untouched sid between1 s1 Hb1) as [Hr2 Hs2]. fold s2 in Hr2, Hs2.
  assert (Hdrop : step (EPlayerMove sid u2 t2) s2 = (s2, [])).
  { simpl. apply on_player_move_drop. rewrite Hr2, Hclock. simpl. lia. }
  assert (Hr3 : rateLimits s3 !! sid = Some t1 ∧ sessions s3 !! sid = Some c).
  { subst s3. rewrite Hdrop. simpl.
    destruct (run_untouched sid between2 s2 Hb2) as [-> ->].
    rewrite Hr2, Hs2, Hsess. done. }
  destruct Hr3 as [Hr3 Hs3].
  assert (Hgate3 : UPDATE_RATE_LIMIT ≤ t3 - default 0 (rateLimits s3 !! sid)).
  { rewrite Hr3. simpl. lia. }
  repeat split; [done|done| |].
  - by rewrite checkRateLimit_pass.
  - by destruct (on_player_move_clock sid c u3 t3 s3 Hs3 Hgate3).
Qed.

Lemma C3_rate_limit_gate_witness :
  let s1 := (step (EPlayerMove "A" step_right 100) two_players).1 in
  let s2 := run [EChatMessage "B" "hi" 105] s1 in
  let s3 := run [EPlayerMove "B" jump_right 200120]
              (step (EPlayerMove "A" jump_right 110) s2).1 in
  rateLimits s1 !! "A" = Some 100 ∧
  step (EPlayerMove "A" jump_right 110) s2 = (s2, []) ∧
  (checkRateLimit "A" 160 s3).2 = true ∧
  rateLimits (step (EPlayerMove "A" step_right 160) s3).1 !! "A" = Some 160.
Proof.
  apply (C3_rate_limit_gate two_players "A" step_right jump_right step_right
           100 110 160 [EChatMessage "B" "hi" 105]
           [EPlayerMove "B" jump_right 200120]).
  - vm_compute. eauto.
  - vm_compute. discriminate.
  - repeat constructor; simpl; auto. 
  - repeat constructor. simpl. discriminate.
  - vm_compute. reflexivity.
  - vm_compute. discriminate.
Defined.

(** ** Chat *)

Lemma inbox_to_room cs room msg x :
  inbox cs [Emit (ToRoom room) msg] x = if joined cs room x then [msg] else [].
Proof. unfold inbox. simpl. by destruct (joined cs room x). Qed.

Lemma inbox_to_others cs sid room msg x :
  inbox cs [Emit (ToOthers sid room) msg] x =
    if bool_decide (x ≠ sid) && joined cs room x then [msg] else [].
Proof.
  unfold inbox. simpl. by destruct (bool_decide (x ≠ sid) && joined cs room x).
Qed.

(** A connected socket is in the room of the world it joined. *)
Lemma joined_own_world cs sid c :
  cs !! sid = Some c → joined cs (s_worldId c) sid = true.
Proof.
  intros Hc. unfold joined. rewrite Hc. apply bool_decide_eq_true. by right.
Qed.

(** C4, as stated, fails: an empty chat message is not rejected; it is
    stamped and broadcast like any other, and no error is sent. *)
Lemma C4_empty_chat_is_broadcast :
  step (EChatMessage "A" "" 200007) two_players =
    (two_players, [Emit (ToRoom "w") (MChatMessage "u" "Useru" "" 200007)]) ∧
  inbox (sessions two_players)
    (step (EChatMessage "A" "" 200007) two_players).2 "B" =
    [MChatMessage "u" "Useru" "" 200007].
Proof. split; vm_compute; reflexivity. Qed.

(** C4, amended. The server does not validate chat messages: every chat
    message (empty or of any length) of a connection whose player is in its
    world is stamped with the sender's id and user name and emitted once to
    the world's room, with no change of state; every connection in that
    room, the sender included, receives exactly one copy, and nobody else
    receives anything. *)
Theorem C4_chat_broadcast_unvalidated
    (s : Server) (sid : string) (c : Session) (player : Player.t)
    (message : string) (now : Z) :
  sessions s !! sid = Some c →
  deref (heap s) (s_world c) !! s_userId c = Some player →
  let msg := MChatMessage (s_userId c) (Player.username player) message now in
  step (EChatMessage sid message now) s = (s, [Emit (ToRoom (s_worldId c)) msg]) ∧
  (∀ x, inbox (sessions s) (step (EChatMessage sid message now) s).2 x =
          if joined (sessions s) (s_worldId c) x then [msg] else []) ∧
  inbox (sessions s) (step (EChatMessage sid message now) s).2 sid = [msg].
Proof.
  intros Hc Hp msg.
  assert (Hstep : step (EChatMessage sid message now) s =
                    (s, [Emit (ToRoom (s_worldId c)) msg])).
  { simpl. unfold on_chat_message. by rewrite Hc, Hp. }
  rewrite Hstep. cbn [fst snd].
  split; [done|]. split.
  - intros x'. apply inbox_to_room.
  - by rewrite inbox_to_room, (joined_own_world _ _ _ Hc).
Qed.

Lemma C4_chat_broadcast_unvalidated_witness :
  let msg := MChatMessage "u" "Useru" "hello" 200007 in
  step (EChatMessage "A" "hello" 200007) two_players =
    (two_players, [Emit (ToRoom "w") msg]) ∧
  (∀ x, inbox (sessions two_players)
          (step (EChatMessage "A" "hello" 200007) two_players).2 x =
          if joined (sessions two_players) "w" x then [msg] else []) ∧
  inbox (sessions two_players)
    (step (EChatMessage "A" "hello" 200007) two_players).2 "A" = [msg].
Proof.
  apply (C4_chat_broadcast_unvalidated two_players "A"
           (mkSession "u" "w" None 0) (spawn_player "u" None 0)
           "hello" 200007).
  - vm_compute. reflexivity.
  - vm_compute. reflexivity.
Defined.

(** ** Periodic cleanup *)

Lemma deref_insert h r w r' :
  deref (<[r := w]> h) r' = if decide (r' = r) then w else deref h r'.
Proof.
  unfold deref. destruct (decide (r' = r)) as [->|Hne].
  - by rewrite lookup_insert_eq.
  - by rewrite lookup_insert_ne.
Qed.

Lemma remove_stale_lookup now (w : World) k p :
  remove_stale now w !! k = Some p ↔ w !! k = Some p ∧ stale now p = false.
Proof. unfold remove_stale. by rewrite map_lookup_filter_Some. Qed.

Lemma remove_stale_idemp now (w : World) :
  remove_stale now (remove_stale now w) = remove_stale now w.
Proof.
  unfold remove_stale at 1. apply map_filter_id. intros k p Hp.
  by apply remove_stale_lookup in Hp as [_ ?].
Qed.

Lemma cleanup_world_swept now s e r :
  swept now (cleanup_world now s e) r = swept now s r.
Proof.
  unfold swept, cleanup_world. simpl. rewrite deref_insert.
  destruct (decide (r = e.2)) as [->|]; [|done]. apply remove_stale_idemp.
Qed.

Lemma cleanup_fold_swept now l s r :
  swept now (foldl (cleanup_world now) s l) r = swept now s r.
Proof.
  revert s. induction l as [|e l IH]; intros s; simpl; [done|].
  by rewrite IH, cleanup_world_swept.
Qed.

(** The Map objects after the loop: those the loop visited are filtered,
    the others are as before. *)
Lemma cleanup_fold_heap now l s r :
  deref (heap (foldl (cleanup_world now) s l)) r =
    if decide (r ∈ l.*2) then swept now s r else deref (heap s) r.
Proof.
  revert s. induction l as [|e l IH]; intros s; simpl.
  - done.
  - rewrite IH, cleanup_world_swept. unfold cleanup_world at 1. simpl.
    rewrite deref_insert.
    destruct (decide (r ∈ l.*2)) as [Hin|Hnin].
    + rewrite decide_True; [done|]. by apply list_elem_of_further.
    + destruct (decide (r = e.2)) as [->|Hne].
      * rewrite decide_True; [done|]. apply list_elem_of_here.
      * rewrite decide_False; [done|].
        intros [?|?]%elem_of_cons; done.
Qed.

Lemma cleanup_fold_worlds_mono now l s wid :
  worlds s !! wid = None →
  worlds (foldl (cleanup_world now) s l) !! wid = None.
Proof.
  revert s. induction l as [|e l IH]; intros s Hnone; simpl; [done|].
  apply IH. unfold cleanup_world. simpl.
  destruct (decide _); [|done].
  destruct (decide (e.1 = wid)) as [->|];
    [apply lookup_delete_eq|by rewrite lookup_delete_ne].
Qed.

Lemma cleanup_fold_worlds_gone now l s wid r :
  (wid, r) ∈ l → size (swept now s r) = 0%nat →
  worlds (foldl (cleanup_world now) s l) !! wid = None.
Proof.
  revert s. induction l as [|e l IH]; intros s Hin Hsz; simpl.
  - by apply elem_of_nil in Hin.
  - apply elem_of_cons in Hin as [<-|Hin].
    + apply cleanup_fold_worlds_mono. unfold cleanup_world. simpl.
      fold (swept now s r). rewrite decide_True by done.
      apply lookup_delete_eq.
    + apply IH; [done|]. by rewrite cleanup_world_swept.
Qed.

Lemma cleanup_fold_worlds_kept now l s wid :
  (∀ r, (wid, r) ∈ l → size (swept now s r) ≠ 0%nat) →
  worlds (foldl (cleanup_world now) s l) !! wid = worlds s !! wid.
Proof.
  revert s. induction l as [|e l IH]; intros s Hall; simpl; [done|].
  rewrite IH.
  - unfold cleanup_world. simpl. fold (swept now s e.2).
    destruct (decide _) as [Hz|]; [|done].
    destruct (decide (e.1 = wid)) as [<-|]; [|by rewrite lookup_delete_ne].
    exfalso. apply (Hall e.2); [|done]. destruct e. apply list_elem_of_here.
  - intros r Hin. rewrite cleanup_world_swept. apply Hall.
    by apply list_elem_of_further.
Qed.

(** What the sweep does to a registered world. *)
Lemma periodic_cleanup_registered now s wid r :
  worlds s !! wid = Some r →
  deref (heap (periodic_cleanup now s).1) r = swept now s r ∧
  worlds (periodic_cleanup now s).1 !! wid =
    if decide (size (swept now s r) = 0%nat) then None else Some r.
Proof.
  intros Hreg. unfold periodic_cleanup. simpl. split.
  - rewrite cleanup_fold_heap, decide_True; [done|].
    apply list_elem_of_fmap. exists (wid, r). split; [done|].
    by apply elem_of_map_to_list.
  - destruct (decide _) as [Hz|Hnz].
    + apply (cleanup_fold_worlds_gone now _ s wid r); [|done].
      by apply elem_of_map_to_list.
    + rewrite cleanup_fold_worlds_kept; [done|].
      intros r' Hin%elem_of_map_to_list.
      rewrite Hreg in Hin. by injection Hin as <-.
Qed.

(** What a sweep does, in general: every player of every world in the
    registry whose [now - timestamp] exceeds 300000 ms is removed from the
    world's player table, the other players are kept, and the world is
    removed from the registry when no player is left in it.  The sweep emits
    nothing and leaves the connections, the user-to-socket table and the
    rate-limit clocks as they are. *)
Lemma periodic_cleanup_effect
    (s : Server) (now : Z) (worldId : string) (r : nat) :
  worlds s !! worldId = Some r →
  let s' := (step (ECleanup now) s).1 in
  (step (ECleanup now) s).2 = [] ∧
  (∀ userId p, deref (heap s) r !! userId = Some p →
     STALE_AFTER < now - Player.timestamp p →
     deref (heap s') r !! userId = None) ∧
  (∀ userId p, deref (heap s) r !! userId = Some p →
     now - Player.timestamp p ≤ STALE_AFTER →
     deref (heap s') r !! userId = Some p) ∧
  (∀ userId, deref (heap s) r !! userId = None →
     deref (heap s') r !! userId = None) ∧
  worlds s' !! worldId =
    (if decide (size (deref (heap s') r) = 0%nat) then None else Some r) ∧
  userSockets s' = userSockets s ∧ rateLimits s' = rateLimits s ∧
  sessions s' = sessions s.
Proof.
  intros Hreg s'. subst s'.
  change (step (ECleanup now) s) with (periodic_cleanup now s).
  destruct (periodic_cleanup_registered now s worldId r Hreg) as [Hh Hw].
  destruct (cleanup_fold_frame now (map_to_list (worlds s)) s)
    as (Hu & Hr & Hs & _).
  rewrite Hh. fold (periodic_cleanup now s).1 in Hu, Hr, Hs.
  unfold swept in *.
  split; [done|]. split; [|split; [|split; [|split]]].
  - intros userId p Hp Hold.
    destruct (remove_stale now (deref (heap s) r) !! userId) as [q|] eqn:Hq;
      [|done].
    apply remove_stale_lookup in Hq as [Hq Hfresh].
    rewrite Hp in Hq. injection Hq as <-.
    unfold stale in Hfresh. apply Z.ltb_ge in Hfresh. lia.
  - intros userId p Hp Hyoung. apply remove_stale_lookup. split; [done|].
    unfold stale. apply Z.ltb_ge. lia.
  - intros userId Hnone.
    destruct (remove_stale now (deref (heap s) r) !! userId) as [q|] eqn:Hq;
      [|done].
    apply remove_stale_lookup in Hq as [Hq _]. congruence.
  - exact Hw.
  - done.
Qed.

(** C5: the sweep is not the teardown of a disconnect.  With "u" stale
    and "v" not, the sweep deletes "u" from world "w" and emits nothing, so
    that "B" receives no [player:left]; socket "A" stays connected and stays
    the socket recorded for "u", and its next move runs into the handler's
    "Player not found" branch.  The disconnect handler, on the same state,
    does send [player:left] for "u" to "B" and clears the bookkeeping. *)
Theorem C5_cleanup_sends_no_player_left :
  let s' := (step (ECleanup 300001) two_players).1 in
  members two_players "w" !! "u" = Some (spawn_player "u" None 0) ∧
  stale 300001 (spawn_player "u" None 0) = true ∧
  members s' "w" !! "u" = None ∧
  members s' "w" !! "v" = Some (spawn_player "v" None 200000) ∧
  (step (ECleanup 300001) two_players).2 = [] ∧
  inbox (sessions s') (step (ECleanup 300001) two_players).2 "B" = [] ∧
  sessions s' !! "A" = Some (mkSession "u" "w" None 0) ∧
  userSockets s' !! "u" = Some "A" ∧
  (step (EPlayerMove "A" step_right 300100) s').2 = [] ∧
  heap (step (EPlayerMove "A" step_right 300100) s').1 = heap s' ∧
  inbox (sessions (step (EDisconnect "A") two_players).1)
    (step (EDisconnect "A") two_players).2 "B" = [MPlayerLeft "u"] ∧
  userSockets (step (EDisconnect "A") two_players).1 !! "u" = None.
Proof. repeat split; vm_compute; reflexivity. Qed.

(** ** Reachable states *)

Lemma run_cons e evs s : run (e :: evs) s = run evs (step e s).1.
Proof. reflexivity. Qed.

Lemma run_app evs1 evs2 s : run (evs1 ++ evs2) s = run evs2 (run evs1 s).
Proof. unfold run. apply foldl_app. Qed.

(** Induction over the events the server has processed. *)
Lemma reachable_invariant (P : Server → Prop) :
  P init → (∀ e s, P s → P (step e s).1) → ∀ s, reachable s → P s.
Proof.
  intros Hinit Hstep s [evs ->].
  assert (Hrun : ∀ s0, P s0 → P (run evs s0)).
  { induction evs as [|e evs IH]; intros s0 H0; [done|].
    rewrite run_cons. by apply IH, Hstep. }
  by apply Hrun.
Qed.

Lemma reachable_step e s : reachable s → reachable (step e s).1.
Proof.
  intros [evs ->]. exists (evs ++ [e]). by rewrite run_app.
Qed.

Lemma world_ok_insert (w : World) k p :
  world_ok w → Player.id p = k → world_ok (<[k := p]> w).
Proof.
  intros Hw Hid k' p'. destruct (decide (k = k')) as [->|Hne].
  - rewrite lookup_insert_eq. by intros [= <-].
  - rewrite lookup_insert_ne by done. apply Hw.
Qed.

Lemma world_ok_delete (w : World) k : world_ok w → world_ok (delete k w).
Proof.
  intros Hw k' p'. destruct (decide (k = k')) as [->|Hne].
  - by rewrite lookup_delete_eq.
  - rewrite lookup_delete_ne by done. apply Hw.
Qed.

Lemma world_ok_remove_stale now (w : World) :
  world_ok w → world_ok (remove_stale now w).
Proof. intros Hw k p [Hp _]%remove_stale_lookup. by apply Hw. Qed.

Lemma world_ok_empty : world_ok ∅.
Proof. intros k p. by rewrite lookup_empty. Qed.

Lemma getWorld_ids_ok worldId s : ids_ok s → ids_ok (getWorld worldId s).1.
Proof.
  intros Hs r. unfold getWorld.
  destruct (worlds s !! worldId); [apply Hs|]. simpl.
  rewrite deref_insert. destruct (decide _); [apply world_ok_empty|apply Hs].
Qed.

Lemma ids_ok_step e s : ids_ok s → ids_ok (step e s).1.
Proof.
  intros Hs.
  destruct e as [sid auth now|sid u now|sid m now|sid t|sid m now|sid|now];
    simpl.
  - unfold on_connection.
    destruct (truthy (auth_userId auth)) as [userId|]; [|done].
    destruct (truthy (auth_worldId auth)) as [worldId|]; [|done].
    pose proof (getWorld_ids_ok worldId s Hs) as H1.
    destruct (getWorld worldId s) as [s1 r]. simpl in *.
    destruct (decide _); simpl; [done|].
    intros r'. simpl. rewrite deref_insert.
    destruct (decide _); [|apply H1].
    by apply world_ok_insert.
  - unfold on_player_move.
    destruct (sessions s !! sid) as [c|]; [|done].
    unfold checkRateLimit. destruct (_ <? _); simpl; [done|].
    destruct (_ !! s_userId c) as [player|] eqn:Hp; simpl; [|done].
    destruct (validateMovement (Some (Player.position player))
                (u_position u) DEFAULT_MAX_SPEED); simpl; [|done].
    intros r'. simpl. rewrite deref_insert.
    destruct (decide _); [|apply Hs].
    apply world_ok_insert; [apply Hs|]. simpl. by apply (Hs (s_world c)).
  - unfold on_chat_message.
    destruct (sessions s !! sid) as [c|]; [|done].
    by destruct (_ !! s_userId c).
  - unfold on_player_interact.
    destruct (sessions s !! sid) as [c|]; [|done].
    destruct (_ !! s_userId c); [|done]. by destruct (_ !! t).
  - unfold on_player_emote.
    destruct (sessions s !! sid) as [c|]; [|done].
    by destruct (_ !! s_userId c).
  - unfold on_disconnect.
    destruct (sessions s !! sid) as [c|]; [|done]. simpl.
    intros r'. simpl. rewrite deref_insert.
    destruct (decide _); [|apply Hs]. apply world_ok_delete, Hs.
  - intros r'. rewrite cleanup_fold_heap.
    destruct (decide _); [|apply Hs]. apply world_ok_remove_stale, Hs.
Qed.

Lemma ids_ok_reachable s : reachable s → ids_ok s.
Proof.
  apply reachable_invariant.
  - intros r. apply world_ok_empty.
  - apply ids_ok_step.
Qed.

(** ** Admission *)

Lemma members_nonempty_registered s worldId :
  (0 < size (members s worldId))%nat → ∃ r, worlds s !! worldId = Some r.
Proof.
  unfold members. destruct (worlds s !! worldId) as [r|]; [by exists r|].
  rewrite map_size_empty. lia.
Qed.

(** The world [getWorld] hands out is the registered one, possibly just
    created empty. *)
Lemma getWorld_spec worldId s :
  deref (heap (getWorld worldId s).1) (getWorld worldId s).2 = members s worldId ∧
  worlds (getWorld worldId s).1 !! worldId = Some (getWorld worldId s).2.
Proof.
  unfold getWorld, members.
  destruct (worlds s !! worldId) as [r|] eqn:Hw; simpl; [done|].
  rewrite deref_insert, decide_True by done. by rewrite lookup_insert_eq.
Qed.

Lemma on_connection_full sid auth now s userId worldId :
  truthy (auth_userId auth) = Some userId →
  truthy (auth_worldId auth) = Some worldId →
  (MAX_PLAYERS_PER_WORLD ≤ size (members s worldId))%nat →
  on_connection sid auth now s =
    (s, [Emit (ToSocket sid) (MError "World is full"); Disconnect sid]).
Proof.
  intros Hu Hw Hfull. unfold on_connection. rewrite Hu, Hw.
  destruct (members_nonempty_registered s worldId) as [r Hr].
  { unfold MAX_PLAYERS_PER_WORLD in Hfull. lia. }
  unfold getWorld. rewrite Hr.
  unfold members in Hfull. rewrite Hr in Hfull.
  by rewrite decide_True.
Qed.

Lemma on_connection_accept sid auth now s userId worldId :
  truthy (auth_userId auth) = Some userId →
  truthy (auth_worldId auth) = Some worldId →
  (size (members s worldId) < MAX_PLAYERS_PER_WORLD)%nat →
  let player := spawn_player userId (auth_username auth) now in
  let s' := (on_connection sid auth now s).1 in
  (on_connection sid auth now s).2 =
    [Emit (ToSocket sid) (MWorldState (map_to_list (members s worldId)).*2);
     Emit (ToOthers sid worldId) (MPlayerJoined player)] ∧
  members s' worldId = <[userId := player]> (members s worldId) ∧
  userSockets s' = <[userId := sid]> (userSockets s) ∧
  rateLimits s' = rateLimits s ∧
  sessions s' =
    <[sid := mkSession userId worldId (auth_username auth)
               (getWorld worldId s).2]> (sessions s).
Proof.
  intros Hu Hw Hroom player s'. subst s' player. unfold on_connection.
  rewrite Hu, Hw.
  destruct (getWorld_spec worldId s) as [Hd Hreg].
  destruct (getWorld_frame worldId s) as (Hus & Hrl & Hss).
  destruct (getWorld worldId s) as [s1 r]. simpl in *.
  rewrite Hd. rewrite decide_False by lia. simpl.
  rewrite Hus, Hrl, Hss. repeat split.
  unfold members. simpl. rewrite Hreg. simpl.
  by rewrite deref_insert, decide_True.
Qed.

(** C8. An admission with a valid handshake into a world that already has
    [MAX_PLAYERS_PER_WORLD] = 50 or more players is answered with the error
    message "World is full" followed by a forced disconnect; nothing in the
    server changes: no player is inserted and the member count is what it
    was. *)
Theorem C8_full_world_rejects
    (s : Server) (sid : string) (auth : Auth) (now : Z)
    (userId worldId : string) :
  truthy (auth_userId auth) = Some userId →
  truthy (auth_worldId auth) = Some worldId →
  (MAX_PLAYERS_PER_WORLD ≤ size (members s worldId))%nat →
  step (EConnection sid auth now) s =
    (s, [Emit (ToSocket sid) (MError "World is full"); Disconnect sid]) ∧
  members (step (EConnection sid auth now) s).1 worldId = members s worldId ∧
  size (members (step (EConnection sid auth now) s).1 worldId) =
    size (members s worldId) ∧
  sessions (step (EConnection sid auth now) s).1 !! sid = sessions s !! sid.
Proof.
  intros Hu Hw Hfull. simpl.
  by rewrite (on_connection_full sid auth now s userId worldId).
Qed.

Lemma C8_full_world_rejects_witness :
  step (EConnection "late" (auth_of "z" "w") 60) full_house =
    (full_house,
     [Emit (ToSocket "late") (MError "World is full"); Disconnect "late"]) ∧
  members (step (EConnection "late" (auth_of "z" "w") 60) full_house).1 "w" =
    members full_house "w" ∧
  size (members (step (EConnection "late" (auth_of "z" "w") 60) full_house).1 "w") =
    size (members full_house "w") ∧
  sessions (step (EConnection "late" (auth_of "z" "w") 60) full_house).1 !! "late" =
    sessions full_house !! "late".
Proof.
  apply (C8_full_world_rejects full_house "late" (auth_of "z" "w") 60 "z" "w").
  - reflexivity.
  - reflexivity.
  - vm_compute. lia.
Defined.

Lemma snapshot_elem_of (w : World) p :
  p ∈ (map_to_list w).*2 ↔ ∃ k, w !! k = Some p.
Proof.
  rewrite list_elem_of_fmap. split.
  - intros ([k p'] & -> & Hin). exists k. by apply elem_of_map_to_list.
  - intros [k Hk]. exists (k, p). split; [done|]. by apply elem_of_map_to_list.
Qed.

(** Who receives what of the two emissions of a successful admission. *)
Lemma inbox_admission cs sid room m1 m2 x :
  inbox cs [Emit (ToSocket sid) m1; Emit (ToOthers sid room) m2] x =
    if decide (x = sid) then [m1]
    else if joined cs room x then [m2] else [].
Proof.
  unfold inbox. simpl. destruct (decide (x = sid)) as [->|Hne].
  - rewrite bool_decide_eq_true_2 by done.
    rewrite (bool_decide_eq_false_2 (sid ≠ sid)) by auto. done.
  - rewrite bool_decide_eq_false_2 by done.
    rewrite (bool_decide_eq_true_2 (x ≠ sid)) by done. simpl.
    by destruct (joined cs room x).
Qed.

(** C7, as stated, fails: when the joining user id is already in the
    world, the snapshot sent to the new connection contains a player with
    that very id; when both admissions read the same clock value, it is
    equal to the player that is being inserted. *)
Lemma C7_snapshot_contains_own_id :
  inbox (sessions (step (EConnection "B" (auth_of "u" "w") 5) one_player).1)
    (step (EConnection "B" (auth_of "u" "w") 5) one_player).2 "B" =
    [MWorldState [spawn_player "u" None 0]] ∧
  Player.id (spawn_player "u" None 0) = "u" ∧
  inbox (sessions (step (EConnection "B" (auth_of "u" "w") 0) one_player).1)
    (step (EConnection "B" (auth_of "u" "w") 0) one_player).2 "B" =
    [MWorldState [spawn_player "u" None 0]] ∧
  members (step (EConnection "B" (auth_of "u" "w") 0) one_player).1 "w" !! "u" =
    Some (spawn_player "u" None 0).
Proof. repeat split; vm_compute; reflexivity. Qed.

(** C7, amended. For every successful admission of a user id that is not
    yet in the world, the [world:state] snapshot sent to the new connection
    is the world's player list before the insertion and contains no player
    with the new id; the [player:joined] event carrying the new player is
    received by every other connection in the world's room and not by the
    new connection, which receives the snapshot only. *)
Theorem C7_snapshot_excludes_fresh_player
    (s : Server) (sid : string) (auth : Auth) (now : Z)
    (userId worldId : string) :
  reachable s →
  truthy (auth_userId auth) = Some userId →
  truthy (auth_worldId auth) = Some worldId →
  (size (members s worldId) < MAX_PLAYERS_PER_WORLD)%nat →
  members s worldId !! userId = None →
  let player := spawn_player userId (auth_username auth) now in
  let s' := (step (EConnection sid auth now) s).1 in
  let out := (step (EConnection sid auth now) s).2 in
  ∃ players,
    out = [Emit (ToSocket sid) (MWorldState players);
           Emit (ToOthers sid worldId) (MPlayerJoined player)] ∧
    (∀ p, p ∈ players ↔ ∃ k, members s worldId !! k = Some p) ∧
    (∀ p, p ∈ players → Player.id p ≠ userId) ∧
    members s' worldId !! userId = Some player ∧
    inbox (sessions s') out sid = [MWorldState players] ∧
    ∀ x, x ≠ sid →
      inbox (sessions s') out x =
        if joined (sessions s') worldId x then [MPlayerJoined player] else [].
Proof.
  intros Hreach Hu Hw Hroom Hfresh player s' out. subst s' out. simpl.
  destruct (on_connection_accept sid auth now s userId worldId Hu Hw Hroom)
    as (Hout & Hmem & _ & _ & _).
  fold player in Hout, Hmem. rewrite Hout, Hmem.
  exists (map_to_list (members s worldId)).*2.
  split; [done|]. split; [apply snapshot_elem_of|]. split; [|split; [|split]].
  - intros p [k Hk]%snapshot_elem_of Hid.
    assert (Player.id p = k) as Hpk.
    { unfold members in Hk. destruct (worlds s !! worldId) as [r|].
      - by apply (ids_ok_reachable s Hreach r).
      - by rewrite lookup_empty in Hk. }
    congruence.
  - apply lookup_insert_eq.
  - by rewrite inbox_admission, decide_True.
  - intros x' Hne. by rewrite inbox_admission, decide_False.
Qed.

Lemma C7_snapshot_excludes_fresh_player_witness :
  let player := spawn_player "v" None 5 in
  let s' := (step (EConnection "B" (auth_of "v" "w") 5) one_player).1 in
  let out := (step (EConnection "B" (auth_of "v" "w") 5) one_player).2 in
  ∃ players,
    out = [Emit (ToSocket "B") (MWorldState players);
           Emit (ToOthers "B" "w") (MPlayerJoined player)] ∧
    (∀ p, p ∈ players ↔ ∃ k, members one_player "w" !! k = Some p) ∧
    (∀ p, p ∈ players → Player.id p ≠ "v") ∧
    members s' "w" !! "v" = Some player ∧
    inbox (sessions s') out "B" = [MWorldState players] ∧
    ∀ x, x ≠ "B" →
      inbox (sessions s') out x =
        if joined (sessions s') "w" x then [MPlayerJoined player] else [].
Proof.
  apply (C7_snapshot_excludes_fresh_player one_player "B" (auth_of "v" "w") 5
           "v" "w").
  - exists [EConnection "A" (auth_of "u" "w") 0]. reflexivity.
  - reflexivity.
  - reflexivity.
  - vm_compute. lia.
  - vm_compute. reflexivity.
Defined.

(** C10, as stated, fails: a user id that is already in the world is
    turned away like anybody else when the world is full. *)
Lemma C10_rejoin_rejected_when_full :
  members full_house "w" !! "p" = Some (spawn_player "p" None 0) ∧
  step (EConnection "late" (auth_of "p" "w") 60) full_house =
    (full_house,
     [Emit (ToSocket "late") (MError "World is full"); Disconnect "late"]).
Proof. split; vm_compute; reflexivity. Qed.

(** C10, amended. An admission with a user id that is already in the
    target world, into a world below its capacity, succeeds: the player
    stored under that id is replaced by a fresh player at the spawn
    position, the member count is unchanged, the only emissions are the
    snapshot and [player:joined] (no error, no [player:left]), and the
    user-to-socket entry now names the new socket, so that
    [interaction:received] for that user is addressed to the room of the new
    socket, which (no world being named by that socket id) holds the new
    connection only. *)
Theorem C10_rejoin_replaces_player
    (s : Server) (sid : string) (auth : Auth) (now : Z)
    (userId worldId : string) (old : Player.t) :
  truthy (auth_userId auth) = Some userId →
  truthy (auth_worldId auth) = Some worldId →
  members s worldId !! userId = Some old →
  (size (members s worldId) < MAX_PLAYERS_PER_WORLD)%nat →
  sid ≠ "" → worldId ≠ sid →
  (∀ x c, sessions s !! x = Some c → s_worldId c ≠ sid) →
  let player := spawn_player userId (auth_username auth) now in
  let s' := (step (EConnection sid auth now) s).1 in
  let out := (step (EConnection sid auth now) s).2 in
  out = [Emit (ToSocket sid)
           (MWorldState (map_to_list (members s worldId)).*2);
         Emit (ToOthers sid worldId) (MPlayerJoined player)] ∧
  is_Some (sessions s' !! sid) ∧
  members s' worldId !! userId = Some player ∧
  size (members s' worldId) = size (members s worldId) ∧
  userSockets s' !! userId = Some sid ∧
  (∀ x c p t,
     sessions s' !! x = Some c →
     deref (heap s') (s_world c) !! s_userId c = Some p →
     deref (heap s') (s_world c) !! userId = Some t →
     (step (EPlayerInteract x userId) s').2 =
       [Emit (ToSocket x) (MInteractionInitiated userId (Player.username t));
        Emit (ToRoom sid)
          (MInteractionReceived (s_userId c) (Player.username p))]) ∧
  (∀ x, delivers (sessions s') (ToRoom sid) x = true ↔ x = sid).
Proof.
  intros Hu Hw Hold Hroom Hsid Hwid Hnames player s' out. subst s' out.
  change (step (EConnection sid auth now) s) with (on_connection sid auth now s).
  destruct (on_connection_accept sid auth now s userId worldId Hu Hw Hroom)
    as (Hout & Hmem & Hus & _ & Hss).
  fold player in Hout, Hmem.
  split; [done|]. split; [|split; [|split; [|split; [|split]]]].
  - rewrite Hss, lookup_insert_eq. eauto.
  - rewrite Hmem. apply lookup_insert_eq.
  - rewrite Hmem. apply map_size_insert_Some. eauto.
  - rewrite Hus. apply lookup_insert_eq.
  - intros x' c p t Hc Hp Ht. simpl. unfold on_player_interact.
    rewrite Hc, Hp, Ht, Hus, lookup_insert_eq. simpl.
    by rewrite decide_False.
  - intros x'. simpl. unfold joined. rewrite Hss.
    destruct (decide (x' = sid)) as [->|Hne].
    + rewrite lookup_insert_eq, bool_decide_eq_true. split; auto.
    + rewrite lookup_insert_ne by done.
      destruct (sessions s !! x') as [c|] eqn:Hc; [|done].
      rewrite bool_decide_eq_true. split; [|done].
      intros [->| ->]; [done|]. by destruct (Hnames x' c Hc).
Qed.

Lemma C10_rejoin_replaces_player_witness :
  let player := spawn_player "u" None 5 in
  let s' := (step (EConnection "B" (auth_of "u" "w") 5) one_player).1 in
  let out := (step (EConnection "B" (auth_of "u" "w") 5) one_player).2 in
  out = [Emit (ToSocket "B")
           (MWorldState (map_to_list (members one_player "w")).*2);
         Emit (ToOthers "B" "w") (MPlayerJoined player)] ∧
  is_Some (sessions s' !! "B") ∧
  members s' "w" !! "u" = Some player ∧
  size (members s' "w") = size (members one_player "w") ∧
  userSockets s' !! "u" = Some "B" ∧
  (∀ x c p t,
     sessions s' !! x = Some c →
     deref (heap s') (s_world c) !! s_userId c = Some p →
     deref (heap s') (s_world c) !! "u" = Some t →
     (step (EPlayerInteract x "u") s').2 =
       [Emit (ToSocket x) (MInteractionInitiated "u" (Player.username t));
        Emit (ToRoom "B")
          (MInteractionReceived (s_userId c) (Player.username p))]) ∧
  (∀ x, delivers (sessions s') (ToRoom "B") x = true ↔ x = "B").
Proof.
  apply (C10_rejoin_replaces_player one_player "B" (auth_of "u" "w") 5
           "u" "w" (spawn_player "u" None 0)).
  - reflexivity.
  - reflexivity.
  - vm_compute. reflexivity.
  - vm_compute. lia.
  - discriminate.
  - discriminate.
  - intros x' c.
    change (sessions one_player)
      with ({["A" := mkSession "u" "w" None 0]} : gmap string Session).
    intros [_ <-]%lookup_singleton_Some. discriminate.
Defined.

(** ** Positions *)







(** ** The registry *)

Lemma registry_ok_init : registry_ok init.
Proof. split; intros *; simpl; by rewrite ?lookup_empty. Qed.

Lemma registry_ok_connection sid auth now s :
  registry_ok s → registry_ok (on_connection sid auth now s).1.
Proof.
  intros [Ha Hb Hc He Hd]. unfold on_connection.
  destruct (truthy (auth_userId auth)) as [userId|]; [|done].
  destruct (truthy (auth_worldId auth)) as [worldId|]; [|done].
  unfold getWorld. destruct (worlds s !! worldId) as [r0|] eqn:Hreg.
  - destruct (decide _) as [Hfull|Hroom]; simpl; [done|].
    split; simpl.
    + done.
    + intros x c. destruct (decide (sid = x)) as [->|Hne].
      * rewrite lookup_insert_eq. intros [= <-]. simpl. by apply (Ha worldId).
      * rewrite lookup_insert_ne by done. apply Hb.
    + intros x c wid. destruct (decide (sid = x)) as [->|Hne].
      * rewrite lookup_insert_eq. intros [= <-]. simpl.
        intros Hwid. by apply (He wid worldId r0).
      * rewrite lookup_insert_ne by done. apply Hc.
    + done.
    + intros wid r Hwid. rewrite deref_insert.
      destruct (decide (r = r0)); [apply insert_non_empty|by apply (Hd wid)].
  - simpl. destruct (decide _) as [Hfull|_].
    { rewrite deref_insert, decide_True, map_size_empty in Hfull by done.
      unfold MAX_PLAYERS_PER_WORLD in Hfull. lia. }
    split; simpl.
    + intros wid r. destruct (decide (worldId = wid)) as [->|Hne].
      * rewrite lookup_insert_eq. intros [= <-]. lia.
      * rewrite lookup_insert_ne by done. intros Hwid%Ha. lia.
    + intros x c. destruct (decide (sid = x)) as [->|Hne].
      * rewrite lookup_insert_eq. intros [= <-]. simpl. lia.
      * rewrite lookup_insert_ne by done. intros Hx%Hb. lia.
    + intros x c wid. destruct (decide (sid = x)) as [->|Hne].
      * rewrite lookup_insert_eq. intros [= <-]. simpl.
        destruct (decide (worldId = wid)) as [->|Hne]; [done|].
        rewrite lookup_insert_ne by done. intros Hwid%Ha. lia.
      * rewrite lookup_insert_ne by done. intros Hx.
        destruct (decide (worldId = wid)) as [->|Hne'].
        -- rewrite lookup_insert_eq. intros [= Heq]. apply Hb in Hx. lia.
        -- rewrite lookup_insert_ne by done. by apply (Hc x).
    + intros wid wid' r.
      destruct (decide (worldId = wid)) as [<-|Hne];
        destruct (decide (worldId = wid')) as [<-|Hne'];
        rewrite ?lookup_insert_eq, ?lookup_insert_ne by done.
      * done.
      * intros [= <-] Hw%Ha. lia.
      * intros Hw%Ha [= <-]. lia.
      * apply He.
    + intros wid r. rewrite deref_insert.
      destruct (decide (r = next s)) as [->|Hr]; [intros _; apply insert_non_empty|].
      destruct (decide (worldId = wid)) as [->|Hne].
      * rewrite lookup_insert_eq. by intros [= <-].
      * rewrite lookup_insert_ne by done. intros Hwid.
        rewrite deref_insert, decide_False by done. by apply (Hd wid).
Qed.

Lemma registry_ok_move sid u now s :
  registry_ok s → registry_ok (on_player_move sid u now s).1.
Proof.
  intros [Ha Hb Hc He Hd]. unfold on_player_move.
  destruct (sessions s !! sid) as [c|]; [|done].
  unfold checkRateLimit. destruct (_ <? _); simpl; [done|].
  destruct (_ !! s_userId c) as [player|]; simpl; [|done].
  destruct (validateMovement (Some (Player.position player))
              (u_position u) DEFAULT_MAX_SPEED); simpl; [|done].
  split; simpl; try done.
  intros wid r Hwid. rewrite deref_insert.
  destruct (decide _); [apply insert_non_empty|by apply (Hd wid)].
Qed.

Lemma registry_ok_disconnect sid s :
  registry_ok s → registry_ok (on_disconnect sid s).1.
Proof.
  intros [Ha Hb Hc He Hd]. unfold on_disconnect.
  destruct (sessions s !! sid) as [c0|] eqn:Hc0; [|done]. simpl.
  set (world := delete (s_userId c0) (deref (heap s) (s_world c0))).
  assert (Hsub : ∀ wid r,
            (if decide (size world = 0%nat)
             then delete (s_worldId c0) (worlds s) else worlds s) !! wid = Some r →
            worlds s !! wid = Some r).
  { intros wid r. destruct (decide _); [|done].
    by intros [_ ?]%lookup_delete_Some. }
  split; simpl.
  - intros wid r Hw%Hsub. by apply (Ha wid).
  - intros x c [_ Hx]%lookup_delete_Some. by apply (Hb x).
  - intros x c wid [_ Hx]%lookup_delete_Some Hw%Hsub. by apply (Hc x).
  - intros wid wid' r Hw%Hsub Hw'%Hsub. by apply (He wid wid' r).
  - intros wid r Hw. rewrite deref_insert.
    destruct (decide (r = s_world c0)) as [->|Hne].
    + pose proof (Hc sid c0 wid Hc0 (Hsub _ _ Hw)) as ->.
      destruct (decide (size world = 0%nat)) as [Hz|Hnz].
      * by rewrite lookup_delete_eq in Hw.
      * by apply map_size_non_empty_iff.
    + apply (Hd wid). by apply Hsub.
Qed.

Lemma periodic_cleanup_lookup now s wid r :
  worlds (periodic_cleanup now s).1 !! wid = Some r →
  worlds s !! wid = Some r ∧ deref (heap (periodic_cleanup now s).1) r ≠ ∅.
Proof.
  intros Hw. destruct (worlds s !! wid) as [r0|] eqn:Hreg.
  - destruct (periodic_cleanup_registered now s wid r0 Hreg) as [Hh Hw'].
    rewrite Hw in Hw'. destruct (decide _) as [|Hnz]; [done|].
    injection Hw' as ->. split; [done|].
    rewrite Hh. by apply map_size_non_empty_iff.
  - unfold periodic_cleanup in Hw. simpl in Hw.
    by rewrite cleanup_fold_worlds_mono in Hw.
Qed.

Lemma registry_ok_cleanup now s :
  registry_ok s → registry_ok (periodic_cleanup now s).1.
Proof.
  intros [Ha Hb Hc He Hd].
  assert (Hs : sessions (periodic_cleanup now s).1 = sessions s)
    by apply cleanup_fold_frame.
  assert (Hn : next (periodic_cleanup now s).1 = next s)
    by apply cleanup_fold_frame.
  split; rewrite ?Hs, ?Hn.
  - intros wid r [Hw _]%periodic_cleanup_lookup. by apply (Ha wid).
  - done.
  - intros x c wid Hx [Hw _]%periodic_cleanup_lookup. by apply (Hc x).
  - intros wid wid' r [Hw _]%periodic_cleanup_lookup
      [Hw' _]%periodic_cleanup_lookup. by apply (He wid wid' r).
  - by intros wid r [_ Hw]%periodic_cleanup_lookup.
Qed.

Lemma registry_ok_step e s : registry_ok s → registry_ok (step e s).1.
Proof.
  intros Hs.
  destruct e as [sid auth now|sid u now|sid m now|sid t|sid m now|sid|now];
    simpl.
  - by apply registry_ok_connection.
  - by apply registry_ok_move.
  - unfold on_chat_message.
    destruct (sessions s !! sid) as [c|]; [|done].
    by destruct (_ !! s_userId c).
  - unfold on_player_interact.
    destruct (sessions s !! sid) as [c|]; [|done].
    destruct (_ !! s_userId c); [|done]. by destruct (_ !! t).
  - unfold on_player_emote.
    destruct (sessions s !! sid) as [c|]; [|done].
    by destruct (_ !! s_userId c).
  - by apply registry_ok_disconnect.
  - by apply registry_ok_cleanup.
Qed.

Lemma registry_ok_reachable s : reachable s → registry_ok s.
Proof.
  apply reachable_invariant; [apply registry_ok_init|apply registry_ok_step].
Qed.

(** In every state the server can reach, a world in the registry has at
    least one player: no empty world is left behind by a disconnect or by
    the sweep. *)
Lemma registered_world_nonempty s worldId :
  reachable s → is_Some (worlds s !! worldId) →
  (1 ≤ size (members s worldId))%nat.
Proof.
  intros Hok%registry_ok_reachable [r Hr].
  unfold members. rewrite Hr.
  pose proof (reg_nonempty s Hok worldId r Hr) as Hne.
  apply map_size_non_empty_iff in Hne. lia.
Qed.

(** C6: the registry loses a populated world.  After [orphaning_trace],
    connection "C" is connected, has joined world "w" and its player is
    stored in the Map its handlers use, yet "w" is not in the registry, and
    a later admission to "w" is handed a new, empty world. *)
Theorem C6_registry_drops_populated_world :
  let s := run orphaning_trace init in
  worlds s !! "w" = None ∧
  sessions s !! "C" = Some (mkSession "v" "w" None 1) ∧
  deref (heap s) 1 !! "v" = Some (spawn_player "v" None 600010) ∧
  joined (sessions s) "w" "C" = true ∧
  (step (EConnection "D" (auth_of "z" "w") 600020) s).2 =
    [Emit (ToSocket "D") (MWorldState []);
     Emit (ToOthers "D" "w") (MPlayerJoined (spawn_player "z" None 600020))].
Proof. repeat split; vm_compute; reflexivity. Qed.

(** The sweep is not needed for it: the disconnect of a connection whose
    user had joined twice does the same. *)
Example registry_drops_populated_world_rejoin :
  let s := run orphaning_trace_rejoin init in
  worlds s !! "w" = None ∧
  sessions s !! "C" = Some (mkSession "v" "w" None 1) ∧
  deref (heap s) 1 !! "v" = Some (spawn_player "v" None 20).
Proof. repeat split; vm_compute; reflexivity. Qed.
